(** * zocl control-request router (zocl_ioctl.c)

    A shallow embedding of the ioctl handlers of
    [src/runtime_src/core/edge/drm/zocl/common/zocl_ioctl.c].

    - C [int], [uint64_t] and [size_t] values are [Z]; the handlers only
      copy and compare them.  The one narrowing conversion of the file,
      [phys_addr_t addr = args->paddr], is written out: [phys_addr_t] is
      [u64] or [u32] according to [CONFIG_PHYS_ADDR_T_64BIT].
    - [DRM_WARN] only writes to the kernel log and is left out.
    - A handler is a computation over the memory it mutates, which also
      keeps a ghost log of the external calls and table reads it makes,
      in program order.
    - The aperture table is indexed without a bounds test.  A read at an
      index outside the table finds what the memory around the table
      holds there, and the handler goes on with it; only where that
      memory cannot be read does the run stop, with outcome
      [OutOfBounds] and the memory written so far left as it is. *)

From Stdlib Require Import ZArith List Bool Lia.
Import ListNotations.
Open Scope Z_scope.

(** ** Kernel errno values used by the file (include/uapi/asm-generic) *)

Definition ENOENT : Z := 2.
Definition EACCES : Z := 13.
Definition EFAULT : Z := 14.
Definition EINVAL : Z := 22.

(** [CAP_SYS_ADMIN] of include/uapi/linux/capability.h. *)
Definition CAP_SYS_ADMIN : Z := 21.

(** ** Handlers as logged, fallible state transformers *)

Inductive outcome (A : Type) : Type :=
| Returns (a : A)
| OutOfBounds (i : Z).
Arguments Returns {A} a.
Arguments OutOfBounds {A} i.

(** [M S E A]: a computation over memory [S] logging events [E]. *)
Definition M (S E A : Type) : Type := S * list E -> outcome A * (S * list E).

Section Monad.
Context {S E : Type}.

Definition ret {A} (a : A) : M S E A := fun w => (Returns a, w).

Definition bind {A B} (m : M S E A) (f : A -> M S E B) : M S E B :=
  fun w => match m w with
           | (Returns a, w') => f a w'
           | (OutOfBounds i, w') => (OutOfBounds i, w')
           end.

Definition get : M S E S := fun w => (Returns (fst w), w).

Definition modify (f : S -> S) : M S E unit :=
  fun w => (Returns tt, (f (fst w), snd w)).

Definition emit (e : E) : M S E unit :=
  fun w => (Returns tt, (fst w, snd w ++ [e])).

Definition fault {A} (i : Z) : M S E A := fun w => (OutOfBounds i, w).

(** An external function that reads and updates the memory. *)
Definition extern {A} (e : E) (f : S -> A * S) : M S E A :=
  fun w => let (a, s') := f (fst w) in (Returns a, (s', snd w ++ [e])).
End Monad.

Declare Scope handler_scope.
Delimit Scope handler_scope with handler.
Notation "x <- c1 ;; c2" := (bind c1 (fun x => c2))
  (at level 61, c1 at next level, right associativity) : handler_scope.
Notation "c1 ;; c2" := (bind c1 (fun _ => c2))
  (at level 61, right associativity) : handler_scope.
Open Scope handler_scope.

(** What a finished run shows: status, memory, log. *)
Definition status {S E A} (r : outcome A * (S * list E)) : outcome A := fst r.
Definition memory {S E A} (r : outcome A * (S * list E)) : S := fst (snd r).
Definition events {S E A} (r : outcome A * (S * list E)) : list E := snd (snd r).

(** ** Aperture resolver: [zocl_info_cu_ioctl] *)

Module InfoCu.

(** The fields of [struct addr_aperture] (zocl_drv.h) the handler reads. *)
Record addr_aperture : Type := {
  addr : Z;      (* phys_addr_t *)
  size : Z;      (* size_t *)
  cu_idx : Z     (* int *)
}.

Record zocl_cu_subdev : Type := { apertures : list addr_aperture }.
Record drm_zocl_dev : Type := { cu_subdev : zocl_cu_subdev }.
Record drm_device : Type := { dev_private : drm_zocl_dev }.

(** [struct drm_zocl_info_cu]: the argument and result record. *)
Record drm_zocl_info_cu : Type := {
  paddr : Z;         (* uint64_t *)
  apt_idx : Z;       (* int *)
  args_cu_idx : Z;   (* int cu_idx *)
  cu_size : Z        (* uint64_t *)
}.

Definition set_paddr (v : Z) (a : drm_zocl_info_cu) : drm_zocl_info_cu :=
  {| paddr := v; apt_idx := apt_idx a; args_cu_idx := args_cu_idx a;
     cu_size := cu_size a |}.
Definition set_apt_idx (v : Z) (a : drm_zocl_info_cu) : drm_zocl_info_cu :=
  {| paddr := paddr a; apt_idx := v; args_cu_idx := args_cu_idx a;
     cu_size := cu_size a |}.
Definition set_cu_idx (v : Z) (a : drm_zocl_info_cu) : drm_zocl_info_cu :=
  {| paddr := paddr a; apt_idx := apt_idx a; args_cu_idx := v;
     cu_size := cu_size a |}.
Definition set_cu_size (v : Z) (a : drm_zocl_info_cu) : drm_zocl_info_cu :=
  {| paddr := paddr a; apt_idx := apt_idx a; args_cu_idx := args_cu_idx a;
     cu_size := v |}.

Inductive field : Type := f_addr | f_size | f_cu_idx.

Definition field_of (f : field) (e : addr_aperture) : Z :=
  match f with
  | f_addr => addr e
  | f_size => size e
  | f_cu_idx => cu_idx e
  end.

Inductive event : Type :=
| call_get_apt_index_by_cu_idx (cu : Z)
| call_get_apt_index_by_addr (a : Z)
| read_apts (i : Z) (f : field).

(** [phys_addr_t] (include/linux/types.h): [u64] when the kernel is built
    with [CONFIG_PHYS_ADDR_T_64BIT], [u32] otherwise. *)
Definition phys_addr_bits (CONFIG_PHYS_ADDR_T_64BIT : bool) : Z :=
  if CONFIG_PHYS_ADDR_T_64BIT then 64 else 32.

(** The conversion of a [uint64_t] to [phys_addr_t]. *)
Definition to_phys_addr_t (CONFIG_PHYS_ADDR_T_64BIT : bool) (x : Z) : Z :=
  x mod 2 ^ phys_addr_bits CONFIG_PHYS_ADDR_T_64BIT.

(** The entry at index [i] of the table, for [0 <= i < num_apts]. *)
Definition apt_at (apts : list addr_aperture) (i : Z) : option addr_aperture :=
  if i <? 0 then None else nth_error apts (Z.to_nat i).

Definition in_bounds (apts : list addr_aperture) (i : Z) : Prop :=
  0 <= i < Z.of_nat (length apts).

(** What the expression [apts[i]] reads.  Inside the table it is the
    entry; outside it is what the memory around the table holds at that
    place, [beyond i], read as an entry, or nothing where that memory
    cannot be read. *)
Definition deref (beyond : Z -> option addr_aperture)
           (apts : list addr_aperture) (i : Z) : option addr_aperture :=
  match apt_at apts i with
  | Some e => Some e
  | None => beyond i
  end.

Definition handler : Type -> Type := M drm_zocl_info_cu event.

Section Handler.
Variable CONFIG_PHYS_ADDR_T_64BIT : bool.

(** The memory around the aperture table. *)
Variable beyond : Z -> option addr_aperture.

(** The two lookups are declared in zocl_drv.h and defined elsewhere
    in the driver; the handler only relies on [-EINVAL] meaning that
    no entry was found. *)
Variable get_apt_index_by_cu_idx : drm_zocl_dev -> Z -> Z.
Variable get_apt_index_by_addr : drm_zocl_dev -> Z -> Z.

(** [apts[i].f] *)
Definition load (apts : list addr_aperture) (i : Z) (f : field) : handler Z :=
  emit (read_apts i f) ;;
  match deref beyond apts i with
  | Some e => ret (field_of f e)
  | None => fault i
  end.

(** The code from label [out:] to the end. *)
Definition out (apts : list addr_aperture) (addr apt_idx cu_idx : Z)
  : handler Z :=
  modify (set_paddr addr) ;;
  modify (set_apt_idx apt_idx) ;;
  modify (set_cu_idx cu_idx) ;;
  sz <- load apts apt_idx f_size ;;
  modify (set_cu_size sz) ;;
  ret 0.

(** The code after the [if (cu_idx != -1)] block, reached when no CU
    index is given or the CU index is not in the table. *)
Definition by_addr (zdev : drm_zocl_dev) (apts : list addr_aperture)
           (addr cu_idx : Z) : handler Z :=
  args <- get ;;
  emit (call_get_apt_index_by_addr (paddr args)) ;;
  let apt_idx := get_apt_index_by_addr zdev (paddr args) in
  if negb (apt_idx =? - EINVAL) then
    cu_idx <- load apts apt_idx f_cu_idx ;;
    out apts addr apt_idx cu_idx
  else
    out apts addr apt_idx cu_idx.

Definition zocl_info_cu_ioctl (ddev : drm_device) : handler Z :=
  args <- get ;;
  let zdev := dev_private ddev in
  let apts := apertures (cu_subdev zdev) in
  let apt_idx := apt_idx args in      (* assigned again on every path *)
  let cu_idx := args_cu_idx args in
  let addr := to_phys_addr_t CONFIG_PHYS_ADDR_T_64BIT (paddr args) in
  if negb (cu_idx =? -1) then
    emit (call_get_apt_index_by_cu_idx cu_idx) ;;
    let apt_idx := get_apt_index_by_cu_idx zdev cu_idx in
    if negb (apt_idx =? - EINVAL) then
      addr <- load apts apt_idx f_addr ;;
      out apts addr apt_idx cu_idx
    else
      by_addr zdev apts addr cu_idx
  else
    by_addr zdev apts addr cu_idx.

(** One request: the handler run on the caller's record, empty log. *)
Definition resolve (ddev : drm_device) (args : drm_zocl_info_cu) :=
  zocl_info_cu_ioctl ddev (args, []).

(** The request is not resolved by CU index: none is given, or the
    table has no entry for it. *)
Definition cu_idx_misses (ddev : drm_device) (args : drm_zocl_info_cu)
  : Prop :=
  args_cu_idx args = -1 \/
  get_apt_index_by_cu_idx (dev_private ddev) (args_cu_idx args) = - EINVAL.

(** The log of the CU-index stage when it misses. *)
Definition cu_idx_stage (args : drm_zocl_info_cu) : list event :=
  if args_cu_idx args =? -1 then []
  else [call_get_apt_index_by_cu_idx (args_cu_idx args)].
End Handler.

(** Modelled from the spec: [get_apt_index_by_cu_idx] and
    [get_apt_index_by_addr] are defined outside this file.  Section 2
    describes the resolver as a lookup between a compute-unit index, a
    physical address and an aperture table slot; here it is the position
    of the first entry holding the key, and [-EINVAL], the value the
    handler tests for, when no entry holds it. *)
Fixpoint first_index (p : addr_aperture -> bool) (apts : list addr_aperture)
         (i : Z) : Z :=
  match apts with
  | [] => - EINVAL
  | e :: rest => if p e then i else first_index p rest (i + 1)
  end.

Definition scan_by_cu_idx (zdev : drm_zocl_dev) (cu : Z) : Z :=
  first_index (fun e => cu_idx e =? cu) (apertures (cu_subdev zdev)) 0.

Definition scan_by_addr (zdev : drm_zocl_dev) (a : Z) : Z :=
  first_index (fun e => addr e =? a) (apertures (cu_subdev zdev)) 0.

(** The address lookup behind its [phys_addr_t] parameter: the caller's
    [uint64_t] is converted on the call. *)
Definition scan_by_phys_addr (CONFIG_PHYS_ADDR_T_64BIT : bool)
           (zdev : drm_zocl_dev) (a : Z) : Z :=
  scan_by_addr zdev (to_phys_addr_t CONFIG_PHYS_ADDR_T_64BIT a).

(** A device whose table maps CU 3 to address 0x8000_0000, size 4096
    (the scenario of section 8), behind one other aperture. *)
Definition board : drm_device :=
  {| dev_private :=
       {| cu_subdev :=
            {| apertures :=
                 [ {| addr := 0x80010000; size := 65536; cu_idx := 0 |};
                   {| addr := 0x80000000; size := 4096; cu_idx := 3 |} ] |} |} |}.

Definition args_of (cu a : Z) : drm_zocl_info_cu :=
  {| paddr := a; apt_idx := 0; args_cu_idx := cu; cu_size := 0 |}.

(** Two memories around the table: one that cannot be read at all, and
    one that reads everywhere as the same stale bytes. *)
Definition unmapped : Z -> option addr_aperture := fun _ => None.

Definition stale : Z -> option addr_aperture :=
  fun _ => Some {| addr := 0x5a5a5a5a; size := 0x6b6b6b6b; cu_idx := 0x5a5a |}.

End InfoCu.

(** ** The delegating handlers *)

Module Router.

(** [struct drm_zocl_create_hw_ctx]: the field the handler reads. *)
Record drm_zocl_create_hw_ctx : Type := {
  axlf_ptr : Z      (* user address of a struct drm_zocl_axlf *)
}.

(** [struct drm_zocl_set_cu_range] *)
Record drm_zocl_set_cu_range : Type := {
  cu_index : Z;
  start : Z;
  range_size : Z    (* size *)
}.

(** Everything the handlers call but this file does not define: kernel
    services and the managers of the driver.  [kernel] is the state
    those functions read and update (user memory, credentials, slots,
    contexts, the scheduler); the other types are the handles the
    handlers pass along untouched. *)
Class Externals : Type := {
  kernel : Type;
  drm_device : Type;
  drm_file : Type;
  drm_zocl_dev : Type;
  kds_client : Type;
  drm_zocl_axlf : Type;
  void_data : Type;                (* [void *data] passed on as it is *)

  ZOCL_GET_ZDEV : drm_device -> drm_zocl_dev;
  dev_private : drm_device -> drm_zocl_dev;
  driver_priv : drm_file -> kds_client;

  (** bytes left uncopied (0 on success) and the destination contents *)
  copy_from_user : kernel -> Z -> Z * drm_zocl_axlf;
  capable : kernel -> Z -> bool;

  (** status and the value left in [*slot_id] *)
  zocl_xclbin_read_axlf :
    drm_zocl_dev -> drm_zocl_axlf -> kds_client -> Z -> kernel -> (Z * Z) * kernel;
  zocl_create_hw_ctx :
    drm_zocl_dev -> drm_zocl_create_hw_ctx -> drm_file -> Z -> kernel -> Z * kernel;
  zocl_destroy_hw_ctx : drm_zocl_dev -> void_data -> drm_file -> kernel -> Z * kernel;
  zocl_open_cu_ctx : drm_zocl_dev -> void_data -> drm_file -> kernel -> Z * kernel;
  zocl_close_cu_ctx : drm_zocl_dev -> void_data -> drm_file -> kernel -> Z * kernel;
  zocl_context_ioctl : drm_zocl_dev -> void_data -> drm_file -> kernel -> Z * kernel;
  zocl_command_ioctl : drm_zocl_dev -> void_data -> drm_file -> kernel -> Z * kernel;
  zocl_hw_ctx_execbuf : drm_zocl_dev -> void_data -> drm_file -> kernel -> Z * kernel;
  zocl_inject_error : drm_zocl_dev -> void_data -> drm_file -> kernel -> Z * kernel;
  zocl_aie_request_part_fd : drm_zocl_dev -> void_data -> kernel -> Z * kernel;
  zocl_aie_reset : drm_zocl_dev -> kernel -> Z * kernel;
  zocl_aie_freqscale : drm_zocl_dev -> void_data -> kernel -> Z * kernel;
  zocl_kds_set_cu_read_range : drm_zocl_dev -> Z -> Z -> Z -> kernel -> Z * kernel
}.

Inductive call : Type :=
| call_copy_from_user (from : Z)
| call_capable (cap : Z)
| call_zocl_xclbin_read_axlf
| call_zocl_create_hw_ctx (slot_id : Z)
| call_zocl_destroy_hw_ctx
| call_zocl_open_cu_ctx
| call_zocl_close_cu_ctx
| call_zocl_context_ioctl
| call_zocl_command_ioctl
| call_zocl_hw_ctx_execbuf
| call_zocl_inject_error
| call_zocl_aie_request_part_fd
| call_zocl_aie_reset
| call_zocl_aie_freqscale
| call_zocl_kds_set_cu_read_range (cu_index start size : Z).

Section Handlers.
Context `{X : Externals}.

Definition handler : Type -> Type := M kernel call.

(** A kernel service that only reads the state. *)
Definition query {A} (c : call) (f : kernel -> A) : handler A :=
  extern c (fun k => (f k, k)).

Definition zocl_read_axlf_ioctl (ddev : drm_device) (data : drm_zocl_axlf)
           (filp : drm_file) : handler Z :=
  let axlf_obj := data in
  let zdev := ZOCL_GET_ZDEV ddev in
  let client := driver_priv filp in
  let slot_id := -1 in
  r <- extern call_zocl_xclbin_read_axlf
         (zocl_xclbin_read_axlf zdev axlf_obj client slot_id) ;;
  ret (fst r).

Definition zocl_create_hw_ctx_ioctl (dev : drm_device)
           (data : drm_zocl_create_hw_ctx) (filp : drm_file) : handler Z :=
  let zdev := ZOCL_GET_ZDEV dev in
  let drm_hw_ctx := data in
  let client := driver_priv filp in
  let slot_id := -1 in
  c <- query (call_copy_from_user (axlf_ptr drm_hw_ctx))
         (fun k => copy_from_user k (axlf_ptr drm_hw_ctx)) ;;
  let axlf_obj := snd c in
  if negb (fst c =? 0) then
    ret (- EFAULT)
  else
    r <- extern call_zocl_xclbin_read_axlf
           (zocl_xclbin_read_axlf zdev axlf_obj client slot_id) ;;
    let ret_ := fst r in
    let slot_id := snd r in
    if negb (ret_ =? 0) then
      ret ret_
    else
      extern (call_zocl_create_hw_ctx slot_id)
        (zocl_create_hw_ctx zdev drm_hw_ctx filp slot_id).

Definition zocl_destroy_hw_ctx_ioctl (dev : drm_device) (data : void_data)
           (filp : drm_file) : handler Z :=
  let zdev := ZOCL_GET_ZDEV dev in
  let drm_hw_ctx := data in
  extern call_zocl_destroy_hw_ctx (zocl_destroy_hw_ctx zdev drm_hw_ctx filp).

Definition zocl_open_cu_ctx_ioctl (dev : drm_device) (data : void_data)
           (filp : drm_file) : handler Z :=
  let zdev := ZOCL_GET_ZDEV dev in
  let drm_cu_ctx := data in
  extern call_zocl_open_cu_ctx (zocl_open_cu_ctx zdev drm_cu_ctx filp).

Definition zocl_close_cu_ctx_ioctl (dev : drm_device) (data : void_data)
           (filp : drm_file) : handler Z :=
  let zdev := ZOCL_GET_ZDEV dev in
  let drm_cu_ctx := data in
  extern call_zocl_close_cu_ctx (zocl_close_cu_ctx zdev drm_cu_ctx filp).

Definition zocl_ctx_ioctl (ddev : drm_device) (data : void_data)
           (filp : drm_file) : handler Z :=
  let zdev := ZOCL_GET_ZDEV ddev in
  extern call_zocl_context_ioctl (zocl_context_ioctl zdev data filp).

Definition zocl_execbuf_ioctl (dev : drm_device) (data : void_data)
           (filp : drm_file) : handler Z :=
  let zdev := dev_private dev in
  extern call_zocl_command_ioctl (zocl_command_ioctl zdev data filp).

Definition zocl_hw_ctx_execbuf_ioctl (dev : drm_device) (data : void_data)
           (filp : drm_file) : handler Z :=
  let zdev := ZOCL_GET_ZDEV dev in
  let drm_hw_ctx_execbuf := data in
  extern call_zocl_hw_ctx_execbuf
    (zocl_hw_ctx_execbuf zdev drm_hw_ctx_execbuf filp).

Definition zocl_error_ioctl (dev : drm_device) (data : void_data)
           (filp : drm_file) : handler Z :=
  let zdev := dev_private dev in
  admin <- query (call_capable CAP_SYS_ADMIN)
             (fun k => capable k CAP_SYS_ADMIN) ;;
  if negb admin then
    ret (- EACCES)
  else
    ret_ <- extern call_zocl_inject_error (zocl_inject_error zdev data filp) ;;
    ret ret_.

Definition zocl_aie_fd_ioctl (dev : drm_device) (data : void_data)
           (filp : drm_file) : handler Z :=
  let args := data in
  let zdev := ZOCL_GET_ZDEV dev in
  ret_ <- extern call_zocl_aie_request_part_fd
            (zocl_aie_request_part_fd zdev args) ;;
  ret ret_.

Definition zocl_aie_reset_ioctl (dev : drm_device) (data : void_data)
           (filp : drm_file) : handler Z :=
  let zdev := ZOCL_GET_ZDEV dev in
  ret_ <- extern call_zocl_aie_reset (zocl_aie_reset zdev) ;;
  ret ret_.

Definition zocl_aie_freqscale_ioctl (dev : drm_device) (data : void_data)
           (filp : drm_file) : handler Z :=
  let zdev := ZOCL_GET_ZDEV dev in
  extern call_zocl_aie_freqscale (zocl_aie_freqscale zdev data).

Definition zocl_set_cu_read_only_range_ioctl (dev : drm_device)
           (data : drm_zocl_set_cu_range) (filp : drm_file) : handler Z :=
  let zdev := ZOCL_GET_ZDEV dev in
  let info := data in
  ret_ <- extern (call_zocl_kds_set_cu_read_range
                    (cu_index info) (start info) (range_size info))
            (zocl_kds_set_cu_read_range zdev
               (cu_index info) (start info) (range_size info)) ;;
  ret ret_.

(** One request: a handler run on kernel state [k] with an empty log. *)
Definition request {A} (h : handler A) (k : kernel) := h (k, []).

(** Handler [h] hands the request to [f] and answers what [f] answers:
    [f] is the only call made, its status is the handler's status and
    the state it leaves is the state after the request. *)
Definition forwards_to (h : handler Z) (c : call) (f : kernel -> Z * kernel)
  : Prop :=
  forall k, request h k = (Returns (fst (f k)), (snd (f k), [c])).
End Handlers.

End Router.

(** ** A small simulated kernel, to run the delegating handlers on *)

Module Sim.

Record sim : Type := {
  user_top : Z;          (* user addresses below it can be read *)
  admin : bool;          (* the caller holds CAP_SYS_ADMIN *)
  loader_status : Z;     (* what the bitstream loader will answer *)
  loaded : list Z;       (* slots programmed so far *)
  hw_ctxs : list Z;      (* slot of every hardware context created *)
  injected : Z           (* errors injected so far *)
}.

Definition load_slot (k : sim) : (Z * Z) * sim :=
  if loader_status k =? 0 then
    ((0, 0),
     {| user_top := user_top k; admin := admin k;
        loader_status := loader_status k; loaded := 0 :: loaded k;
        hw_ctxs := hw_ctxs k; injected := injected k |})
  else ((loader_status k, -1), k).

Definition create_ctx (slot : Z) (k : sim) : Z * sim :=
  (0, {| user_top := user_top k; admin := admin k;
         loader_status := loader_status k; loaded := loaded k;
         hw_ctxs := slot :: hw_ctxs k; injected := injected k |}).

Definition inject (k : sim) : Z * sim :=
  (0, {| user_top := user_top k; admin := admin k;
         loader_status := loader_status k; loaded := loaded k;
         hw_ctxs := hw_ctxs k; injected := injected k + 1 |}).

Definition idle (k : sim) : Z * sim := (0, k).

#[export] Instance sim_externals : Router.Externals := {|
  Router.kernel := sim;
  Router.drm_device := unit;
  Router.drm_file := unit;
  Router.drm_zocl_dev := unit;
  Router.kds_client := unit;
  Router.drm_zocl_axlf := Z;
  Router.void_data := unit;
  Router.ZOCL_GET_ZDEV := fun d => d;
  Router.dev_private := fun d => d;
  Router.driver_priv := fun f => f;
  Router.copy_from_user :=
    fun k p => if (0 <=? p) && (p <? user_top k) then (0, p) else (8, 0);
  Router.capable := fun k c => (c =? CAP_SYS_ADMIN) && admin k;
  Router.zocl_xclbin_read_axlf := fun _ _ _ _ => load_slot;
  Router.zocl_create_hw_ctx := fun _ _ _ slot => create_ctx slot;
  Router.zocl_destroy_hw_ctx := fun _ _ _ => idle;
  Router.zocl_open_cu_ctx := fun _ _ _ => idle;
  Router.zocl_close_cu_ctx := fun _ _ _ => idle;
  Router.zocl_context_ioctl := fun _ _ _ => idle;
  Router.zocl_command_ioctl := fun _ _ _ => idle;
  Router.zocl_hw_ctx_execbuf := fun _ _ _ => idle;
  Router.zocl_inject_error := fun _ _ _ => inject;
  Router.zocl_aie_request_part_fd := fun _ _ => idle;
  Router.zocl_aie_reset := fun _ => idle;
  Router.zocl_aie_freqscale := fun _ _ => idle;
  Router.zocl_kds_set_cu_read_range := fun _ _ _ _ => idle
|}.

(** A caller without the capability, whose readable memory ends at
    0x1000, on a device whose loader answers [st]. *)
Definition boot (st : Z) : sim :=
  {| user_top := 0x1000; admin := false; loader_status := st;
     loaded := []; hw_ctxs := []; injected := 0 |}.

End Sim.

(** ** The simulated kernel when context creation fails *)

Module SimNoMemory.
Import Router Sim.

Definition ENOMEM : Z := 12.

(** The simulated kernel with [zocl_create_hw_ctx] out of memory. *)
Definition sim_no_memory : Externals := {|
  kernel := sim;
  drm_device := unit;
  drm_file := unit;
  drm_zocl_dev := unit;
  kds_client := unit;
  drm_zocl_axlf := Z;
  void_data := unit;
  ZOCL_GET_ZDEV := fun d => d;
  dev_private := fun d => d;
  driver_priv := fun f => f;
  copy_from_user := copy_from_user (Externals := sim_externals);
  capable := capable (Externals := sim_externals);
  zocl_xclbin_read_axlf := fun _ _ _ _ => load_slot;
  zocl_create_hw_ctx := fun _ _ _ _ k => (- ENOMEM, k);
  zocl_destroy_hw_ctx := fun _ _ _ => idle;
  zocl_open_cu_ctx := fun _ _ _ => idle;
  zocl_close_cu_ctx := fun _ _ _ => idle;
  zocl_context_ioctl := fun _ _ _ => idle;
  zocl_command_ioctl := fun _ _ _ => idle;
  zocl_hw_ctx_execbuf := fun _ _ _ => idle;
  zocl_inject_error := fun _ _ _ => inject;
  zocl_aie_request_part_fd := fun _ _ => idle;
  zocl_aie_reset := fun _ => idle;
  zocl_aie_freqscale := fun _ _ => idle;
  zocl_kds_set_cu_read_range := fun _ _ _ _ => idle
|}.

End SimNoMemory.

(** * Properties *)

(** ** The aperture resolver *)

Module InfoCuFacts.
Import InfoCu.

Lemma apt_at_in_bounds apts i e : apt_at apts i = Some e -> in_bounds apts i.
Proof.
  unfold apt_at, in_bounds. destruct (Z.ltb_spec i 0) as [Hneg | Hpos].
  - discriminate.
  - intros Hnth.
    assert (Hlt : (Z.to_nat i < length apts)%nat).
    { apply nth_error_Some. rewrite Hnth. discriminate. }
    lia.
Qed.

Lemma in_bounds_apt_at apts i : in_bounds apts i -> exists e, apt_at apts i = Some e.
Proof.
  unfold apt_at, in_bounds. intros [Hlo Hhi].
  destruct (Z.ltb_spec i 0) as [Hneg | _]; [lia |].
  destruct (nth_error apts (Z.to_nat i)) as [e |] eqn:Hnth.
  - now exists e.
  - apply nth_error_None in Hnth. lia.
Qed.

Lemma apt_at_sentinel apts : apt_at apts (- EINVAL) = None.
Proof. reflexivity. Qed.

Lemma sentinel_out_of_bounds apts : ~ in_bounds apts (- EINVAL).
Proof. unfold in_bounds, EINVAL. lia. Qed.

Lemma apt_at_none_out_of_bounds apts i :
  apt_at apts i = None -> ~ in_bounds apts i.
Proof.
  intros Hnone Hin. destruct (in_bounds_apt_at _ _ Hin) as [e He]. congruence.
Qed.

(** Inside the table a read finds the entry, whatever lies around. *)
Lemma deref_in_table beyond apts i e :
  apt_at apts i = Some e -> deref beyond apts i = Some e.
Proof. unfold deref. now intros ->. Qed.

Lemma deref_in_bounds beyond apts i :
  in_bounds apts i -> deref beyond apts i = apt_at apts i.
Proof.
  intros Hin. destruct (in_bounds_apt_at _ _ Hin) as [e He].
  now rewrite He, (deref_in_table _ _ _ _ He).
Qed.

(** A read that finds nothing was outside the table. *)
Lemma deref_none_out_of_bounds beyond apts i :
  deref beyond apts i = None -> ~ in_bounds apts i.
Proof.
  unfold deref. destruct (apt_at apts i) eqn:He; [discriminate |].
  intros _. now apply apt_at_none_out_of_bounds.
Qed.

(** At [-EINVAL] a read finds what lies before the table. *)
Lemma deref_sentinel beyond apts :
  deref beyond apts (- EINVAL) = beyond (- EINVAL).
Proof. reflexivity. Qed.

(** An address that fits [phys_addr_t] goes through the conversion
    unchanged. *)
Lemma to_phys_addr_t_fits cfg x :
  0 <= x < 2 ^ phys_addr_bits cfg -> to_phys_addr_t cfg x = x.
Proof. intros Hx. unfold to_phys_addr_t. now apply Z.mod_small. Qed.

Section Paths.
Variable cfg : bool.
Variable beyond : Z -> option addr_aperture.
Variable by_cu : drm_zocl_dev -> Z -> Z.
Variable by_pa : drm_zocl_dev -> Z -> Z.

Local Abbreviation resolve := (resolve cfg beyond by_cu by_pa).
Local Abbreviation cu_idx_misses := (cu_idx_misses by_cu).
Local Abbreviation table ddev := (apertures (cu_subdev (dev_private ddev))).
Local Abbreviation at_ ddev i := (deref beyond (table ddev) i).
Local Abbreviation phys := (to_phys_addr_t cfg).

Ltac run :=
  unfold InfoCu.resolve, zocl_info_cu_ioctl, by_addr, out, load,
    bind, get, modify, emit, ret, fault; cbn [fst snd app].

(** The CU-index path: the lookup answers [i] and the read of
    [apts[i]] finds [e]. *)
Lemma resolve_cu_hit ddev args i e :
  args_cu_idx args <> -1 ->
  by_cu (dev_private ddev) (args_cu_idx args) = i ->
  i <> - EINVAL ->
  at_ ddev i = Some e ->
  resolve ddev args =
  (Returns 0,
   ({| paddr := addr e; apt_idx := i; args_cu_idx := args_cu_idx args;
       cu_size := size e |},
    [call_get_apt_index_by_cu_idx (args_cu_idx args);
     read_apts i f_addr; read_apts i f_size])).
Proof.
  intros Hcu Hi Hne He. run.
  destruct (Z.eqb_spec (args_cu_idx args) (-1)) as [? | _]; [contradiction |].
  cbn [negb]. rewrite Hi.
  destruct (Z.eqb_spec i (- EINVAL)) as [? | _]; [contradiction |].
  cbn [negb]. rewrite He. reflexivity.
Qed.

(** The CU-index path when [apts[i]] cannot be read: the run stops at
    the read of [apts[i].addr] and nothing has been written. *)
Lemma resolve_cu_fault ddev args i :
  args_cu_idx args <> -1 ->
  by_cu (dev_private ddev) (args_cu_idx args) = i ->
  i <> - EINVAL ->
  at_ ddev i = None ->
  resolve ddev args =
  (OutOfBounds i,
   (args, [call_get_apt_index_by_cu_idx (args_cu_idx args); read_apts i f_addr])).
Proof.
  intros Hcu Hi Hne He. run.
  destruct (Z.eqb_spec (args_cu_idx args) (-1)) as [? | _]; [contradiction |].
  cbn [negb]. rewrite Hi.
  destruct (Z.eqb_spec i (- EINVAL)) as [? | _]; [contradiction |].
  cbn [negb]. rewrite He. reflexivity.
Qed.

(** The head of the fallback path: the handler arrives at the address
    stage with the record untouched. *)
Lemma resolve_falls_back ddev args :
  cu_idx_misses ddev args ->
  resolve ddev args =
  by_addr beyond by_pa (dev_private ddev) (table ddev)
    (phys (paddr args)) (args_cu_idx args) (args, cu_idx_stage args).
Proof.
  intros Hmiss. run. unfold cu_idx_stage.
  destruct (Z.eqb_spec (args_cu_idx args) (-1)) as [Heq | Hne]; cbn [negb].
  - reflexivity.
  - destruct Hmiss as [? | Hmiss]; [contradiction |].
    rewrite Hmiss, Z.eqb_refl. reflexivity.
Qed.

(** The fallback path when the address lookup answers [i] and the read
    of [apts[i]] finds [e]. *)
Lemma resolve_addr_hit ddev args i e :
  cu_idx_misses ddev args ->
  by_pa (dev_private ddev) (paddr args) = i ->
  i <> - EINVAL ->
  at_ ddev i = Some e ->
  resolve ddev args =
  (Returns 0,
   ({| paddr := phys (paddr args); apt_idx := i; args_cu_idx := cu_idx e;
       cu_size := size e |},
    cu_idx_stage args ++
    [call_get_apt_index_by_addr (paddr args);
     read_apts i f_cu_idx; read_apts i f_size])).
Proof.
  intros Hmiss Hi Hne He. rewrite (resolve_falls_back _ _ Hmiss). run.
  rewrite Hi.
  destruct (Z.eqb_spec i (- EINVAL)) as [? | _]; [contradiction |].
  cbn [negb]. rewrite He. cbn.
  rewrite <- !app_assoc. reflexivity.
Qed.

(** The same when [apts[i]] cannot be read: the run stops at the read
    of [apts[i].cu_idx] and nothing has been written. *)
Lemma resolve_addr_fault ddev args i :
  cu_idx_misses ddev args ->
  by_pa (dev_private ddev) (paddr args) = i ->
  i <> - EINVAL ->
  at_ ddev i = None ->
  resolve ddev args =
  (OutOfBounds i,
   (args, cu_idx_stage args ++
          [call_get_apt_index_by_addr (paddr args); read_apts i f_cu_idx])).
Proof.
  intros Hmiss Hi Hne He. rewrite (resolve_falls_back _ _ Hmiss). run.
  rewrite Hi.
  destruct (Z.eqb_spec i (- EINVAL)) as [? | _]; [contradiction |].
  cbn [negb]. rewrite He. cbn. rewrite <- !app_assoc. reflexivity.
Qed.

(** Neither lookup finds an entry: the record is written with
    [apt_idx = -EINVAL], then [apts[-EINVAL].size] is read.  When the
    memory before the table reads as [e], the handler returns 0 with
    the size of [e]. *)
Lemma resolve_both_miss_read ddev args e :
  cu_idx_misses ddev args ->
  by_pa (dev_private ddev) (paddr args) = - EINVAL ->
  beyond (- EINVAL) = Some e ->
  resolve ddev args =
  (Returns 0,
   ({| paddr := phys (paddr args); apt_idx := - EINVAL;
       args_cu_idx := args_cu_idx args; cu_size := size e |},
    cu_idx_stage args ++
    [call_get_apt_index_by_addr (paddr args);
     read_apts (- EINVAL) f_size])).
Proof.
  intros Hmiss Hpa He. rewrite (resolve_falls_back _ _ Hmiss). run.
  rewrite Hpa. cbn [Z.eqb negb EINVAL Z.opp Pos.eqb].
  rewrite deref_sentinel. change (- (22)) with (- EINVAL). rewrite He. cbn.
  rewrite <- !app_assoc. reflexivity.
Qed.

(** When that memory cannot be read, the run stops there, the record
    already written. *)
Lemma resolve_both_miss_fault ddev args :
  cu_idx_misses ddev args ->
  by_pa (dev_private ddev) (paddr args) = - EINVAL ->
  beyond (- EINVAL) = None ->
  resolve ddev args =
  (OutOfBounds (- EINVAL),
   ({| paddr := phys (paddr args); apt_idx := - EINVAL;
       args_cu_idx := args_cu_idx args; cu_size := cu_size args |},
    cu_idx_stage args ++
    [call_get_apt_index_by_addr (paddr args);
     read_apts (- EINVAL) f_size])).
Proof.
  intros Hmiss Hpa He. rewrite (resolve_falls_back _ _ Hmiss). run.
  rewrite Hpa. cbn [Z.eqb negb EINVAL Z.opp Pos.eqb].
  rewrite deref_sentinel. change (- (22)) with (- EINVAL). rewrite He. cbn.
  rewrite <- !app_assoc. reflexivity.
Qed.

(** Zero is the only status the handler has. *)
Lemma resolve_status_zero ddev args r :
  status (resolve ddev args) = Returns r -> r = 0.
Proof.
  unfold status. run.
  repeat match goal with
         | |- context [if ?b then _ else _] => destruct b
         | |- context [match deref ?b ?l ?i with _ => _ end] =>
             destruct (deref b l i)
         end; cbn; congruence.
Qed.

(** The CU-index stage reads no table entry and does not call the
    address lookup. *)
Lemma cu_idx_stage_only_cu_lookup args ev :
  In ev (cu_idx_stage args) ->
  ev = call_get_apt_index_by_cu_idx (args_cu_idx args).
Proof.
  unfold cu_idx_stage. destruct (args_cu_idx args =? -1); cbn; intuition.
Qed.

Lemma in_stage args ev :
  In ev (cu_idx_stage args) <->
  ev = call_get_apt_index_by_cu_idx (args_cu_idx args) /\ args_cu_idx args <> -1.
Proof.
  unfold cu_idx_stage.
  destruct (Z.eqb_spec (args_cu_idx args) (-1)) as [Heq | Hne]; cbn.
  - split; [intros [] | intros [_ H]; contradiction].
  - split; [intros [<- | []]; now split | intros [-> _]; now left].
Qed.

(** Which way a request goes is decided by the key it carries and by
    what the CU lookup answers for it. *)
Lemma cu_hit_or_miss ddev args :
  cu_idx_misses ddev args \/
  (args_cu_idx args <> -1 /\
   by_cu (dev_private ddev) (args_cu_idx args) <> - EINVAL).
Proof.
  unfold InfoCu.cu_idx_misses.
  destruct (Z.eq_dec (args_cu_idx args) (-1)); [now left; left |].
  destruct (Z.eq_dec (by_cu (dev_private ddev) (args_cu_idx args)) (- EINVAL));
    [now left; right | now right].
Qed.

Lemma cu_hit_not_miss ddev args :
  args_cu_idx args <> -1 ->
  by_cu (dev_private ddev) (args_cu_idx args) <> - EINVAL ->
  ~ cu_idx_misses ddev args.
Proof. intros Hcu Hhit [H | H]; contradiction. Qed.

(** The ways through the handler. *)
Lemma resolve_cases ddev args :
  let r := resolve ddev args in
  let i := by_cu (dev_private ddev) (args_cu_idx args) in
  let j := by_pa (dev_private ddev) (paddr args) in
  (args_cu_idx args <> -1 /\ i <> - EINVAL /\
   ((exists e, at_ ddev i = Some e /\
      r = (Returns 0,
           ({| paddr := addr e; apt_idx := i;
               args_cu_idx := args_cu_idx args; cu_size := size e |},
            [call_get_apt_index_by_cu_idx (args_cu_idx args);
             read_apts i f_addr; read_apts i f_size]))) \/
    (at_ ddev i = None /\
      r = (OutOfBounds i,
           (args, [call_get_apt_index_by_cu_idx (args_cu_idx args);
                   read_apts i f_addr]))))) \/
  (cu_idx_misses ddev args /\
   ((j <> - EINVAL /\ exists e, at_ ddev j = Some e /\
      r = (Returns 0,
           ({| paddr := phys (paddr args); apt_idx := j;
               args_cu_idx := cu_idx e; cu_size := size e |},
            cu_idx_stage args ++
            [call_get_apt_index_by_addr (paddr args);
             read_apts j f_cu_idx; read_apts j f_size]))) \/
    (j <> - EINVAL /\ at_ ddev j = None /\
      r = (OutOfBounds j,
           (args, cu_idx_stage args ++
                  [call_get_apt_index_by_addr (paddr args);
                   read_apts j f_cu_idx]))) \/
    (j = - EINVAL /\ exists e, beyond (- EINVAL) = Some e /\
      r = (Returns 0,
           ({| paddr := phys (paddr args); apt_idx := - EINVAL;
               args_cu_idx := args_cu_idx args; cu_size := size e |},
            cu_idx_stage args ++
            [call_get_apt_index_by_addr (paddr args);
             read_apts (- EINVAL) f_size]))) \/
    (j = - EINVAL /\ beyond (- EINVAL) = None /\
      r = (OutOfBounds (- EINVAL),
           ({| paddr := phys (paddr args); apt_idx := - EINVAL;
               args_cu_idx := args_cu_idx args; cu_size := cu_size args |},
            cu_idx_stage args ++
            [call_get_apt_index_by_addr (paddr args);
             read_apts (- EINVAL) f_size]))))).
Proof.
  intros r i j. subst r i j.
  destruct (cu_hit_or_miss ddev args) as [Hmiss | [Hcu Hhit]].
  - right. split; [exact Hmiss |].
    destruct (Z.eq_dec (by_pa (dev_private ddev) (paddr args)) (- EINVAL))
      as [Hpa | Hpa].
    + destruct (beyond (- EINVAL)) as [e |] eqn:He.
      * right; right; left. split; [exact Hpa |]. exists e.
        split; [reflexivity |]. now apply resolve_both_miss_read.
      * right; right; right. split; [exact Hpa |]. split; [reflexivity |].
        now apply resolve_both_miss_fault.
    + destruct (at_ ddev (by_pa (dev_private ddev) (paddr args)))
        as [e |] eqn:He.
      * left. split; [exact Hpa |]. exists e. split; [reflexivity |].
        now apply resolve_addr_hit.
      * right; left. split; [exact Hpa |]. split; [reflexivity |].
        now apply resolve_addr_fault.
  - left. split; [exact Hcu |]. split; [exact Hhit |].
    destruct (at_ ddev (by_cu (dev_private ddev) (args_cu_idx args)))
      as [e |] eqn:He.
    + left. exists e. split; [reflexivity |]. now apply resolve_cu_hit.
    + right. split; [reflexivity |]. now apply resolve_cu_fault.
Qed.

Ltac paths ddev args :=
  let H := fresh "H" in
  pose proof (resolve_cases ddev args) as H; cbv zeta in H;
  destruct H as
    [ (Hcu & Hhit & [ (e & He & Hr) | (He & Hr) ])
    | (Hmiss & [ (Hpa & e & He & Hr)
               | [ (Hpa & He & Hr)
                 | [ (Hpa & e & He & Hr) | (Hpa & He & Hr) ] ] ]) ];
  rewrite Hr; unfold status, memory, events; cbn [fst snd].

(** C1 (as amended): when neither lookup finds an entry the handler does
    not return NotFound ([-ENOENT]).  The miss is reported in the result
    record: [apt_idx] holds [-EINVAL], [cu_idx] is the caller's and
    [paddr] is the caller's address as a [phys_addr_t].  The only status
    the handler can return is 0, and it does return 0 whenever the
    memory its last read touches can be read. *)
Theorem miss_reported_in_band ddev args :
  cu_idx_misses ddev args ->
  by_pa (dev_private ddev) (paddr args) = - EINVAL ->
  let r := resolve ddev args in
  status r <> Returns (- ENOENT) /\
  apt_idx (memory r) = - EINVAL /\
  paddr (memory r) = phys (paddr args) /\
  args_cu_idx (memory r) = args_cu_idx args /\
  (forall st, status r = Returns st -> st = 0) /\
  (forall e, beyond (- EINVAL) = Some e -> status r = Returns 0).
Proof.
  intros Hmiss Hpa r.
  assert (Hzero : forall st, status r = Returns st -> st = 0)
    by (intros st; apply resolve_status_zero).
  split; [intros Hst; apply Hzero in Hst; discriminate |].
  subst r. destruct (beyond (- EINVAL)) as [e |] eqn:He.
  - rewrite (resolve_both_miss_read _ _ e Hmiss Hpa He) in *.
    now repeat split.
  - rewrite (resolve_both_miss_fault _ _ Hmiss Hpa He) in *.
    repeat split; [exact Hzero | discriminate].
Qed.

(** C3: a request whose CU index is given and found in the table is
    resolved by CU index alone.  The address lookup is never called, and
    the aperture index, physical address and size returned are those of
    the entry found; the status is 0 and the CU index is the caller's. *)
Theorem cu_idx_takes_precedence ddev args i e :
  args_cu_idx args <> -1 ->
  by_cu (dev_private ddev) (args_cu_idx args) = i ->
  i <> - EINVAL ->
  apt_at (apertures (cu_subdev (dev_private ddev))) i = Some e ->
  let r := resolve ddev args in
  status r = Returns 0 /\
  (forall a, ~ In (call_get_apt_index_by_addr a) (events r)) /\
  apt_idx (memory r) = i /\
  paddr (memory r) = addr e /\
  cu_size (memory r) = size e /\
  args_cu_idx (memory r) = args_cu_idx args.
Proof.
  intros Hcu Hi Hne He r. subst r.
  rewrite (resolve_cu_hit _ _ _ _ Hcu Hi Hne (deref_in_table beyond _ _ _ He)).
  unfold status, memory, events. cbn.
  repeat split. intros a [H | [H | [H | []]]]; discriminate.
Qed.

(** C4: when no CU index is given, or the one given is not in the table,
    and the physical address is found, the request is resolved by
    address: the address lookup is called and the CU index returned is
    the one recorded in the entry it found. *)
Theorem degrades_to_address ddev args i e :
  cu_idx_misses ddev args ->
  by_pa (dev_private ddev) (paddr args) = i ->
  i <> - EINVAL ->
  apt_at (apertures (cu_subdev (dev_private ddev))) i = Some e ->
  let r := resolve ddev args in
  status r = Returns 0 /\
  In (call_get_apt_index_by_addr (paddr args)) (events r) /\
  args_cu_idx (memory r) = cu_idx e /\
  apt_idx (memory r) = i /\
  cu_size (memory r) = size e.
Proof.
  intros Hmiss Hi Hne He r. subst r.
  rewrite (resolve_addr_hit _ _ _ _ Hmiss Hi Hne (deref_in_table beyond _ _ _ He)).
  unfold status, memory, events. cbn.
  repeat split. apply in_or_app. right. now left.
Qed.

(** C10 (as amended): on the fallback path (no CU index given, or not
    found) the [paddr] of the result record is the caller's address
    converted to [phys_addr_t]: the caller's value unchanged whenever it
    fits [phys_addr_t], and in every run that returns its low
    [phys_addr_bits] bits.  The [addr] field of no table entry is read:
    the base address of an entry is written back on the CU-index path
    only. *)
Theorem fallback_keeps_paddr ddev args :
  cu_idx_misses ddev args ->
  let r := resolve ddev args in
  (0 <= paddr args < 2 ^ phys_addr_bits cfg ->
   paddr (memory r) = paddr args) /\
  (forall st, status r = Returns st -> paddr (memory r) = phys (paddr args)) /\
  (forall i, ~ In (read_apts i f_addr) (events r)).
Proof.
  intros Hmiss0 r. subst r.
  assert (Hlog : forall l,
             (forall j, ~ In (read_apts j f_addr) l) ->
             forall j, ~ In (read_apts j f_addr) (cu_idx_stage args ++ l)).
  { intros l Hl j Hin. apply in_app_or in Hin as [Hin | Hin].
    - apply cu_idx_stage_only_cu_lookup in Hin. discriminate.
    - exact (Hl j Hin). }
  paths ddev args;
    try (now destruct (cu_hit_not_miss ddev args Hcu Hhit));
    (split; [intros Hfit; cbn; try reflexivity;
             now apply to_phys_addr_t_fits |]);
    (split; [intros st Hst; cbn; reflexivity || discriminate Hst |]);
    apply Hlog; cbn; intros j Hin;
    repeat destruct Hin as [Hin | Hin]; congruence.
Qed.
End Paths.

(** *** The reference lookups and the section 8 table *)

Lemma first_index_spec p apts k :
  0 <= k ->
  let i := first_index p apts k in
  (i = - EINVAL /\ forall e, In e apts -> p e = false) \/
  (k <= i < k + Z.of_nat (length apts) /\
   exists e, nth_error apts (Z.to_nat (i - k)) = Some e /\ p e = true).
Proof.
  revert k. induction apts as [| e rest IH]; intros k Hk; cbn [first_index].
  - left. split; [reflexivity | intros e []].
  - destruct (p e) eqn:Hp.
    + right. cbn [length]. split; [lia |]. exists e.
      rewrite Z.sub_diag. now split.
    + destruct (IH (k + 1) ltac:(lia)) as [[Hi Hall] | [Hi (e' & Hnth & Hp')]].
      * left. split; [exact Hi |]. intros e0 [<- | Hin]; auto.
      * right. cbn [length]. split; [lia |]. exists e'. split; [| exact Hp'].
        replace (Z.to_nat (first_index p rest (k + 1) - k))
          with (S (Z.to_nat (first_index p rest (k + 1) - (k + 1)))) by lia.
        exact Hnth.
Qed.

(** A reference lookup answers [-EINVAL] or the index of an entry of the
    table that holds the key. *)
Lemma scan_by_cu_idx_sound zdev cu :
  let i := scan_by_cu_idx zdev cu in
  i = - EINVAL \/
  exists e, apt_at (apertures (cu_subdev zdev)) i = Some e /\ cu_idx e = cu.
Proof.
  unfold scan_by_cu_idx.
  destruct (first_index_spec (fun e => cu_idx e =? cu)
              (apertures (cu_subdev zdev)) 0 ltac:(lia))
    as [[Hi _] | [Hi (e & Hnth & Hp)]]; [now left | right].
  exists e. rewrite Z.sub_0_r in Hnth. unfold apt_at.
  destruct (Z.ltb_spec (first_index (fun e0 => cu_idx e0 =? cu)
                          (apertures (cu_subdev zdev)) 0) 0); [lia |].
  split; [exact Hnth | now apply Z.eqb_eq].
Qed.

Lemma scan_by_addr_sound zdev a :
  let i := scan_by_addr zdev a in
  i = - EINVAL \/
  exists e, apt_at (apertures (cu_subdev zdev)) i = Some e /\ addr e = a.
Proof.
  unfold scan_by_addr.
  destruct (first_index_spec (fun e => addr e =? a)
              (apertures (cu_subdev zdev)) 0 ltac:(lia))
    as [[Hi _] | [Hi (e & Hnth & Hp)]]; [now left | right].
  exists e. rewrite Z.sub_0_r in Hnth. unfold apt_at.
  destruct (Z.ltb_spec (first_index (fun e0 => addr e0 =? a)
                          (apertures (cu_subdev zdev)) 0) 0); [lia |].
  split; [exact Hnth | now apply Z.eqb_eq].
Qed.

(** Runs on the section 8 table with a 64-bit [phys_addr_t]: [lookup]
    with nothing readable around the table, [lookup_stale] with stale
    bytes around it. *)
Local Abbreviation lookup :=
  (resolve true unmapped scan_by_cu_idx scan_by_addr board).
Local Abbreviation lookup_stale :=
  (resolve true stale scan_by_cu_idx scan_by_addr board).

(** Section 8: resolving CU 3 echoes index 3, 0x8000_0000 and 4096. *)
Example scenario_by_cu_idx :
  lookup (args_of 3 0) =
  (Returns 0,
   ({| paddr := 0x80000000; apt_idx := 1; args_cu_idx := 3; cu_size := 4096 |},
    [call_get_apt_index_by_cu_idx 3; read_apts 1 f_addr; read_apts 1 f_size])).
Proof. reflexivity. Qed.

(** Section 8: resolving address 0x8000_0000 gives CU 3. *)
Example scenario_by_addr :
  lookup (args_of (-1) 0x80000000) =
  (Returns 0,
   ({| paddr := 0x80000000; apt_idx := 1; args_cu_idx := 3; cu_size := 4096 |},
    [call_get_apt_index_by_addr 0x80000000;
     read_apts 1 f_cu_idx; read_apts 1 f_size])).
Proof. reflexivity. Qed.

(** C1, as stated, fails: CU 7 and address 0x9000_0000 are not in the
    table, both lookups miss, and the handler returns 0, not NotFound. *)
Lemma both_miss_not_notfound :
  scan_by_cu_idx (dev_private board) 7 = - EINVAL /\
  scan_by_addr (dev_private board) 0x90000000 = - EINVAL /\
  status (lookup_stale (args_of 7 0x90000000)) = Returns 0 /\
  status (lookup_stale (args_of 7 0x90000000)) <> Returns (- ENOENT).
Proof. repeat split. discriminate. Qed.

Lemma miss_reported_in_band_witness :
  let r := lookup_stale (args_of 7 0x90000000) in
  status r <> Returns (- ENOENT) /\
  apt_idx (memory r) = -22 /\
  paddr (memory r) = 0x90000000 /\
  args_cu_idx (memory r) = 7 /\
  (forall st, status r = Returns st -> st = 0) /\
  (forall e, stale (- EINVAL) = Some e -> status r = Returns 0).
Proof.
  apply (miss_reported_in_band true stale scan_by_cu_idx scan_by_addr board
           (args_of 7 0x90000000)).
  - right. reflexivity.
  - reflexivity.
Defined.

(** C2: on the request of CU 7 at 0x9000_0000, which neither lookup
    finds, the handler reads [apts[-22].size]: the final size read uses
    the miss value [-EINVAL] as table index, outside the two-entry table.
    Where the memory before the table cannot be read the run stops
    there; where it can, the handler returns 0 and hands what it read
    to the caller as [cu_size]. *)
Theorem size_read_out_of_bounds cfg beyond :
  let r := resolve cfg beyond scan_by_cu_idx scan_by_addr board
             (args_of 7 0x90000000) in
  status r = match beyond (-22) with
             | Some _ => Returns 0
             | None => OutOfBounds (-22)
             end /\
  events r = [call_get_apt_index_by_cu_idx 7;
              call_get_apt_index_by_addr 0x90000000;
              read_apts (-22) f_size] /\
  ~ in_bounds (apertures (cu_subdev (dev_private board))) (-22) /\
  cu_size (memory r) = match beyond (-22) with
                       | Some e => size e
                       | None => 0
                       end.
Proof.
  intros r. subst r.
  assert (Hmiss : cu_idx_misses scan_by_cu_idx board (args_of 7 0x90000000))
    by (right; reflexivity).
  assert (Hout : ~ in_bounds (apertures (cu_subdev (dev_private board))) (-22))
    by (unfold in_bounds; cbn; lia).
  change (-22) with (- EINVAL) in *.
  destruct (beyond (- EINVAL)) as [e |] eqn:He.
  - rewrite (resolve_both_miss_read cfg beyond _ _ _ _ e Hmiss eq_refl He).
    now repeat split.
  - rewrite (resolve_both_miss_fault cfg beyond _ _ _ _ Hmiss eq_refl He).
    now repeat split.
Qed.

Lemma cu_idx_takes_precedence_witness :
  let r := lookup (args_of 3 0x80010000) in
  status r = Returns 0 /\
  (forall a, ~ In (call_get_apt_index_by_addr a) (events r)) /\
  apt_idx (memory r) = 1 /\
  paddr (memory r) = 0x80000000 /\
  cu_size (memory r) = 4096 /\
  args_cu_idx (memory r) = 3.
Proof.
  apply (cu_idx_takes_precedence true unmapped scan_by_cu_idx scan_by_addr
           board (args_of 3 0x80010000) 1
           {| addr := 0x80000000; size := 4096; cu_idx := 3 |}).
  - discriminate.
  - reflexivity.
  - discriminate.
  - reflexivity.
Defined.

Lemma degrades_to_address_witness :
  let r := lookup (args_of 7 0x80000000) in
  status r = Returns 0 /\
  In (call_get_apt_index_by_addr 0x80000000) (events r) /\
  args_cu_idx (memory r) = 3 /\
  apt_idx (memory r) = 1 /\
  cu_size (memory r) = 4096.
Proof.
  apply (degrades_to_address true unmapped scan_by_cu_idx scan_by_addr board
           (args_of 7 0x80000000) 1
           {| addr := 0x80000000; size := 4096; cu_idx := 3 |}).
  - right. reflexivity.
  - reflexivity.
  - discriminate.
  - reflexivity.
Defined.

(** C10, as stated, fails where [phys_addr_t] is 32 bits wide: the
    request for address 0x1_8000_0000 is resolved by address, at entry 1,
    and comes back with [paddr] 0x8000_0000. *)
Lemma fallback_narrows_paddr :
  let args := args_of (-1) 0x180000000 in
  let r := resolve false unmapped scan_by_cu_idx (scan_by_phys_addr false)
             board args in
  cu_idx_misses scan_by_cu_idx board args /\
  status r = Returns 0 /\
  apt_idx (memory r) = 1 /\
  paddr (memory r) = 0x80000000 /\
  paddr (memory r) <> paddr args.
Proof. repeat split; [now left | discriminate]. Qed.

Lemma fallback_keeps_paddr_witness :
  let r := lookup (args_of (-1) 0x80010000) in
  paddr (memory r) = 0x80010000 /\
  (forall st, status r = Returns st -> paddr (memory r) = 0x80010000) /\
  (forall i, ~ In (read_apts i f_addr) (events r)).
Proof.
  destruct (fallback_keeps_paddr true unmapped scan_by_cu_idx scan_by_addr
              board (args_of (-1) 0x80010000)) as (Hfit & Hret & Hlog).
  - left. reflexivity.
  - split; [apply Hfit; cbn; lia | split; [exact Hret | exact Hlog]].
Defined.
End InfoCuFacts.

(** ** The delegating handlers *)

Module RouterFacts.
Import Router.

Section Facts.
Context `{X : Externals}.

Ltac run :=
  unfold request, zocl_create_hw_ctx_ioctl, zocl_error_ioctl, query, extern,
    bind, ret; cbn [fst snd app].

(** Every run of [zocl_create_hw_ctx_ioctl]: copy, then load, then create,
    stopping at the first step that fails. *)
Lemma create_hw_ctx_run dev data filp k :
  request (zocl_create_hw_ctx_ioctl dev data filp) k =
  let c := copy_from_user k (axlf_ptr data) in
  if fst c =? 0 then
    let l := zocl_xclbin_read_axlf (ZOCL_GET_ZDEV dev) (snd c)
               (driver_priv filp) (-1) k in
    if fst (fst l) =? 0 then
      let n := zocl_create_hw_ctx (ZOCL_GET_ZDEV dev) data filp
                 (snd (fst l)) (snd l) in
      (Returns (fst n),
       (snd n, [call_copy_from_user (axlf_ptr data);
                call_zocl_xclbin_read_axlf;
                call_zocl_create_hw_ctx (snd (fst l))]))
    else
      (Returns (fst (fst l)),
       (snd l, [call_copy_from_user (axlf_ptr data);
                call_zocl_xclbin_read_axlf]))
  else
    (Returns (- EFAULT), (k, [call_copy_from_user (axlf_ptr data)])).
Proof.
  run. destruct (copy_from_user k (axlf_ptr data)) as [left axlf].
  cbn [fst snd]. destruct (left =? 0); cbn [negb]; [| reflexivity].
  destruct (zocl_xclbin_read_axlf _ _ _ _ _) as [[st slot] k'].
  cbn [fst snd]. destruct (st =? 0); cbn [negb]; [| reflexivity].
  destruct (zocl_create_hw_ctx _ _ _ _ _). reflexivity.
Qed.

(** C5: in every run of [zocl_create_hw_ctx_ioctl] a call of
    [zocl_create_hw_ctx] comes after a call of [zocl_xclbin_read_axlf];
    and when the load answers a non-zero status, that status is what the
    handler returns, the state is the one the load left and
    [zocl_create_hw_ctx] is not called. *)
Theorem load_precedes_create dev data filp k :
  let r := request (zocl_create_hw_ctx_ioctl dev data filp) k in
  (forall before slot after,
      events r = before ++ call_zocl_create_hw_ctx slot :: after ->
      In call_zocl_xclbin_read_axlf before) /\
  (forall axlf,
      copy_from_user k (axlf_ptr data) = (0, axlf) ->
      let l := zocl_xclbin_read_axlf (ZOCL_GET_ZDEV dev) axlf
                 (driver_priv filp) (-1) k in
      fst (fst l) <> 0 ->
      status r = Returns (fst (fst l)) /\
      memory r = snd l /\
      forall slot, ~ In (call_zocl_create_hw_ctx slot) (events r)).
Proof.
  intros r. subst r. rewrite create_hw_ctx_run. split.
  - intros before slot after. cbv zeta.
    destruct (fst (copy_from_user k (axlf_ptr data)) =? 0);
      [destruct (fst (fst (zocl_xclbin_read_axlf _ _ _ _ _)) =? 0) |];
      unfold events; cbn [fst snd]; intros Hlog;
      repeat (destruct before as [| ? before]; cbn in Hlog;
              [ discriminate Hlog || (cbn; now auto)
              | discriminate Hlog || injection Hlog as <- Hlog ]).
  - intros axlf Hcopy l Hfail. subst l. cbv zeta. rewrite Hcopy. cbn [fst snd].
    rewrite Z.eqb_refl. apply Z.eqb_neq in Hfail. rewrite Hfail.
    unfold status, memory, events. cbn. repeat split.
    intros slot [H | [H | []]]; discriminate.
Qed.

(** C6 (as amended): when the axlf descriptor cannot be copied from the
    caller, the handler returns [-EFAULT] (bad address, not
    InvalidArgument); the kernel state is unchanged, and neither
    [zocl_xclbin_read_axlf] nor [zocl_create_hw_ctx] is called. *)
Theorem unreadable_axlf_is_efault dev data filp k :
  fst (copy_from_user k (axlf_ptr data)) <> 0 ->
  let r := request (zocl_create_hw_ctx_ioctl dev data filp) k in
  status r = Returns (- EFAULT) /\
  memory r = k /\
  ~ In call_zocl_xclbin_read_axlf (events r) /\
  (forall slot, ~ In (call_zocl_create_hw_ctx slot) (events r)).
Proof.
  intros Hcopy r. subst r. rewrite create_hw_ctx_run. cbv zeta.
  apply Z.eqb_neq in Hcopy. rewrite Hcopy.
  unfold status, memory, events. cbn. repeat split.
  - intros [H | []]. discriminate.
  - intros slot [H | []]. discriminate.
Qed.

(** C7: a caller without [CAP_SYS_ADMIN] gets [-EACCES] from
    [zocl_error_ioctl]; [zocl_inject_error] is not called and the kernel
    state is unchanged. *)
Theorem error_ioctl_needs_admin dev data filp k :
  capable k CAP_SYS_ADMIN = false ->
  let r := request (zocl_error_ioctl dev data filp) k in
  status r = Returns (- EACCES) /\
  memory r = k /\
  ~ In call_zocl_inject_error (events r).
Proof.
  intros Hcap r. subst r. run. rewrite Hcap.
  unfold status, memory, events. cbn. repeat split.
  intros [H | []]. discriminate.
Qed.

(** With the capability, the request goes to [zocl_inject_error]. *)
Lemma error_ioctl_admin dev data filp k :
  capable k CAP_SYS_ADMIN = true ->
  request (zocl_error_ioctl dev data filp) k =
  (Returns (fst (zocl_inject_error (dev_private dev) data filp k)),
   (snd (zocl_inject_error (dev_private dev) data filp k),
    [call_capable CAP_SYS_ADMIN; call_zocl_inject_error])).
Proof.
  intros Hcap. run. rewrite Hcap. cbn.
  destruct (zocl_inject_error _ _ _ _). reflexivity.
Qed.

Ltac forward :=
  intros k; unfold request, extern, bind, ret; cbn [fst snd app];
  match goal with
  | |- context [snd (?f k)] => destruct (f k)
  end; reflexivity.

(** C9: the handlers of DestroyHardwareContext, OpenCuContext,
    CloseCuContext, SubmitCommand (both entry points),
    RequestAiePartition, ResetAie, SetAieFrequency and
    SetCuReadOnlyRange each make one call, to their manager, and return
    the status of that call as it is, leaving the state the call left. *)
Theorem router_returns_delegate_status dev filp :
  (forall data,
      forwards_to (zocl_destroy_hw_ctx_ioctl dev data filp)
        call_zocl_destroy_hw_ctx
        (zocl_destroy_hw_ctx (ZOCL_GET_ZDEV dev) data filp)) /\
  (forall data,
      forwards_to (zocl_open_cu_ctx_ioctl dev data filp)
        call_zocl_open_cu_ctx
        (zocl_open_cu_ctx (ZOCL_GET_ZDEV dev) data filp)) /\
  (forall data,
      forwards_to (zocl_close_cu_ctx_ioctl dev data filp)
        call_zocl_close_cu_ctx
        (zocl_close_cu_ctx (ZOCL_GET_ZDEV dev) data filp)) /\
  (forall data,
      forwards_to (zocl_execbuf_ioctl dev data filp)
        call_zocl_command_ioctl
        (zocl_command_ioctl (dev_private dev) data filp)) /\
  (forall data,
      forwards_to (zocl_hw_ctx_execbuf_ioctl dev data filp)
        call_zocl_hw_ctx_execbuf
        (zocl_hw_ctx_execbuf (ZOCL_GET_ZDEV dev) data filp)) /\
  (forall data,
      forwards_to (zocl_aie_fd_ioctl dev data filp)
        call_zocl_aie_request_part_fd
        (zocl_aie_request_part_fd (ZOCL_GET_ZDEV dev) data)) /\
  (forall data,
      forwards_to (zocl_aie_reset_ioctl dev data filp)
        call_zocl_aie_reset
        (zocl_aie_reset (ZOCL_GET_ZDEV dev))) /\
  (forall data,
      forwards_to (zocl_aie_freqscale_ioctl dev data filp)
        call_zocl_aie_freqscale
        (zocl_aie_freqscale (ZOCL_GET_ZDEV dev) data)) /\
  (forall data,
      forwards_to (zocl_set_cu_read_only_range_ioctl dev data filp)
        (call_zocl_kds_set_cu_read_range
           (cu_index data) (start data) (range_size data))
        (zocl_kds_set_cu_read_range (ZOCL_GET_ZDEV dev)
           (cu_index data) (start data) (range_size data))).
Proof.
  repeat split; intros data;
    [ unfold zocl_destroy_hw_ctx_ioctl | unfold zocl_open_cu_ctx_ioctl
    | unfold zocl_close_cu_ctx_ioctl | unfold zocl_execbuf_ioctl
    | unfold zocl_hw_ctx_execbuf_ioctl | unfold zocl_aie_fd_ioctl
    | unfold zocl_aie_reset_ioctl | unfold zocl_aie_freqscale_ioctl
    | unfold zocl_set_cu_read_only_range_ioctl ]; forward.
Qed.
End Facts.
End RouterFacts.

(** ** Runs on the simulated kernel *)

Module SimFacts.
Import Router Sim.

Local Abbreviation create_at p :=
  (zocl_create_hw_ctx_ioctl (X := sim_externals) tt {| axlf_ptr := p |} tt).

(** A readable descriptor and a willing loader: slot 0 is programmed and
    a context is created on it. *)
Example create_succeeds :
  request (create_at 0x100) (boot 0) =
  (Returns 0,
   ({| user_top := 0x1000; admin := false; loader_status := 0;
       loaded := [0]; hw_ctxs := [0]; injected := 0 |},
    [call_copy_from_user 0x100; call_zocl_xclbin_read_axlf;
     call_zocl_create_hw_ctx 0])).
Proof. reflexivity. Qed.

Lemma load_precedes_create_witness :
  let r := request (create_at 0x100) (boot (-16)) in
  status r = Returns (-16) /\
  memory r = boot (-16) /\
  forall slot, ~ In (call_zocl_create_hw_ctx slot) (events r).
Proof.
  apply (proj2 (RouterFacts.load_precedes_create (X := sim_externals)
                  tt {| axlf_ptr := 0x100 |} tt (boot (-16))) 0x100).
  - reflexivity.
  - discriminate.
Defined.

(** C6, as stated, fails: the descriptor at 0x2000 lies beyond the
    caller's readable memory, the copy fails, and the status is not
    InvalidArgument ([-EINVAL]). *)
Lemma unreadable_axlf_not_einval :
  fst (copy_from_user (boot 0) 0x2000) <> 0 /\
  status (request (create_at 0x2000) (boot 0)) <> Returns (- EINVAL).
Proof. split; discriminate. Qed.

Lemma unreadable_axlf_is_efault_witness :
  let r := request (create_at 0x2000) (boot 0) in
  status r = Returns (-14) /\
  memory r = boot 0 /\
  ~ In call_zocl_xclbin_read_axlf (events r) /\
  (forall slot, ~ In (call_zocl_create_hw_ctx slot) (events r)).
Proof.
  apply (RouterFacts.unreadable_axlf_is_efault (X := sim_externals)
           tt {| axlf_ptr := 0x2000 |} tt (boot 0)).
  discriminate.
Defined.

Lemma error_ioctl_needs_admin_witness :
  let r := request (zocl_error_ioctl (X := sim_externals) tt tt tt) (boot 0) in
  status r = Returns (-13) /\
  memory r = boot 0 /\
  ~ In call_zocl_inject_error (events r).
Proof.
  apply (RouterFacts.error_ioctl_needs_admin (X := sim_externals)
           tt tt tt (boot 0)).
  reflexivity.
Defined.
End SimFacts.

(** * Further properties of the handlers *)

(** ** [zocl_info_cu_ioctl], for any pair of lookups *)

Module InfoCuMore.
Import InfoCu.

Section AnyLookups.
Variable cfg : bool.
Variable beyond : Z -> option addr_aperture.
Variable by_cu : drm_zocl_dev -> Z -> Z.
Variable by_pa : drm_zocl_dev -> Z -> Z.

Local Abbreviation resolve := (resolve cfg beyond by_cu by_pa).
Local Abbreviation cu_idx_misses := (cu_idx_misses by_cu).
Local Abbreviation table ddev := (apertures (cu_subdev (dev_private ddev))).
Local Abbreviation phys := (to_phys_addr_t cfg).
Local Abbreviation cu_hit_not_miss := (InfoCuFacts.cu_hit_not_miss by_cu).

Ltac paths ddev args :=
  let H := fresh "H" in
  pose proof (InfoCuFacts.resolve_cases cfg beyond by_cu by_pa ddev args) as H;
  cbv zeta in H;
  destruct H as
    [ (Hcu & Hhit & [ (e & He & Hr) | (He & Hr) ])
    | (Hmiss & [ (Hpa & e & He & Hr)
               | [ (Hpa & He & Hr)
                 | [ (Hpa & e & He & Hr) | (Hpa & He & Hr) ] ] ]) ];
  rewrite Hr; unfold status, memory, events; cbn [fst snd].

(** X1: the handler has no error status.  A run either returns 0 or
    stops at a table index that a lookup answered and that lies outside
    the table. *)
Theorem zero_or_wild_index ddev args :
  let r := resolve ddev args in
  status r = Returns 0 \/
  exists i, status r = OutOfBounds i /\ ~ in_bounds (table ddev) i /\
            (i = by_cu (dev_private ddev) (args_cu_idx args) \/
             i = by_pa (dev_private ddev) (paddr args)).
Proof.
  intros r. subst r. paths ddev args.
  - now left.
  - right. eexists. split; [reflexivity |].
    split; [now apply InfoCuFacts.deref_none_out_of_bounds with beyond
           | now left].
  - now left.
  - right. eexists. split; [reflexivity |].
    split; [now apply InfoCuFacts.deref_none_out_of_bounds with beyond
           | now right].
  - now left.
  - right. exists (- EINVAL). split; [reflexivity |].
    split; [apply InfoCuFacts.sentinel_out_of_bounds | now right].
Qed.

(** X2: when the handler returns, every table read it made was at the
    index it reports in [apt_idx], and [cu_size] is the size of what
    the read at that index found: of the table entry when the index is
    inside the table. *)
Theorem reads_at_returned_index ddev args st :
  status (resolve ddev args) = Returns st ->
  let r := resolve ddev args in
  (forall i f, In (read_apts i f) (events r) -> i = apt_idx (memory r)) /\
  (exists e, deref beyond (table ddev) (apt_idx (memory r)) = Some e /\
             cu_size (memory r) = size e) /\
  (forall e, apt_at (table ddev) (apt_idx (memory r)) = Some e ->
             cu_size (memory r) = size e).
Proof.
  intros Hst r. subst r. revert Hst.
  assert (Hin_table : forall i e e',
             deref beyond (table ddev) i = Some e ->
             apt_at (table ddev) i = Some e' -> size e = size e').
  { intros i e e' Hd Ha.
    rewrite (InfoCuFacts.deref_in_table beyond _ _ _ Ha) in Hd. congruence. }
  paths ddev args; intros Hst; try discriminate Hst; cbn.
  - split; [| split; [now exists e | intros e'; now apply Hin_table]].
    intros i f [H | [H | [H | []]]]; congruence.
  - split; [| split; [now exists e | intros e'; now apply Hin_table]].
    intros i f Hin. apply in_app_or in Hin as [Hin | Hin].
    + apply InfoCuFacts.in_stage in Hin as [Hin _]. discriminate.
    + destruct Hin as [H | [H | [H | []]]]; congruence.
  - split; [| split; [now exists e |]].
    + intros i f Hin. apply in_app_or in Hin as [Hin | Hin].
      * apply InfoCuFacts.in_stage in Hin as [Hin _]. discriminate.
      * destruct Hin as [H | [H | []]]; congruence.
    + intros e' H. discriminate H.
Qed.

(** X3: if both lookups answer [-EINVAL] or an index inside the table,
    the handler reads outside the table exactly when both lookups miss,
    and the only such read is that of [apts[-EINVAL].size]. *)
Theorem wild_read_iff_both_miss ddev args :
  (forall c, by_cu (dev_private ddev) c = - EINVAL \/
             in_bounds (table ddev) (by_cu (dev_private ddev) c)) ->
  (forall a, by_pa (dev_private ddev) a = - EINVAL \/
             in_bounds (table ddev) (by_pa (dev_private ddev) a)) ->
  let r := resolve ddev args in
  let both_miss := cu_idx_misses ddev args /\
                   by_pa (dev_private ddev) (paddr args) = - EINVAL in
  (forall i f, In (read_apts i f) (events r) -> ~ in_bounds (table ddev) i ->
               i = - EINVAL /\ f = f_size) /\
  (In (read_apts (- EINVAL) f_size) (events r) <-> both_miss).
Proof.
  intros Bcu Bpa r both_miss. subst r both_miss.
  assert (Hstage : forall l i f,
             In (read_apts i f) (cu_idx_stage args ++ l) ->
             In (read_apts i f) l).
  { intros l i f Hin. apply in_app_or in Hin as [Hin | Hin]; [| exact Hin].
    apply InfoCuFacts.in_stage in Hin as [Hin _]. discriminate. }
  paths ddev args.
  - pose proof (cu_hit_not_miss ddev args Hcu Hhit) as Hnm.
    destruct (Bcu (args_cu_idx args)) as [? | Hin]; [contradiction |].
    split.
    + intros i f [H | [H | [H | []]]] Hout; try discriminate;
        injection H as <- _; contradiction.
    + split; [| tauto].
      intros [H | [H | [H | []]]]; congruence.
  - destruct (Bcu (args_cu_idx args)) as [? | Hin]; [contradiction |].
    now apply InfoCuFacts.deref_none_out_of_bounds in He.
  - destruct (Bpa (paddr args)) as [? | Hin]; [contradiction |].
    split.
    + intros i f Hin' Hout. apply Hstage in Hin'.
      destruct Hin' as [H | [H | [H | []]]]; try discriminate;
        injection H as <- _; contradiction.
    + split; [| tauto].
      intros Hin'. apply Hstage in Hin'.
      destruct Hin' as [H | [H | [H | []]]]; congruence.
  - destruct (Bpa (paddr args)) as [? | Hin]; [contradiction |].
    now apply InfoCuFacts.deref_none_out_of_bounds in He.
  - split.
    + intros i f Hin' _. apply Hstage in Hin'.
      destruct Hin' as [H | [H | []]]; try discriminate.
      injection H as <- <-. now split.
    + split; [tauto |]. intros _. apply in_or_app. right. cbn. tauto.
  - split.
    + intros i f Hin' _. apply Hstage in Hin'.
      destruct Hin' as [H | [H | []]]; try discriminate.
      injection H as <- <-. now split.
    + split; [tauto |]. intros _. apply in_or_app. right. cbn. tauto.
Qed.

(** X4: the lookups the handler calls.  The CU lookup is called exactly
    when the caller's [cu_idx] is not -1, with that [cu_idx]; the address
    lookup is called exactly when the request is not resolved by CU
    index, with the caller's [paddr]. *)
Theorem lookups_called ddev args :
  let r := resolve ddev args in
  (forall c, In (call_get_apt_index_by_cu_idx c) (events r) <->
             c = args_cu_idx args /\ c <> -1) /\
  (forall a, In (call_get_apt_index_by_addr a) (events r) <->
             a = paddr args /\ cu_idx_misses ddev args).
Proof.
  intros r. subst r.
  assert (Hstage : forall l c,
             (forall c', ~ In (call_get_apt_index_by_cu_idx c') l) ->
             (In (call_get_apt_index_by_cu_idx c) (cu_idx_stage args ++ l) <->
              c = args_cu_idx args /\ c <> -1)).
  { intros l c Hl. rewrite in_app_iff, InfoCuFacts.in_stage. split.
    - intros [[H Hne] | H]; [| now apply Hl in H].
      injection H as ->. now split.
    - intros [-> Hne]. left. now split. }
  assert (Haddr : forall l a,
             In (call_get_apt_index_by_addr a)
                (cu_idx_stage args ++ call_get_apt_index_by_addr (paddr args) :: l)
             <-> a = paddr args \/ In (call_get_apt_index_by_addr a) l).
  { intros l a. rewrite in_app_iff, InfoCuFacts.in_stage. cbn. split.
    - intros [[H _] | [H | H]]; [discriminate | injection H as ->; now left | now right].
    - intros [-> | H]; right; [now left | now right]. }
  paths ddev args.
  - pose proof (cu_hit_not_miss ddev args Hcu Hhit) as Hnm. split.
    + intros c. cbn. split.
      * intros [H | [H | [H | []]]]; try discriminate. injection H as <-. now split.
      * intros [-> _]. now left.
    + intros a. cbn. split; [| tauto].
      intros [H | [H | [H | []]]]; discriminate.
  - pose proof (cu_hit_not_miss ddev args Hcu Hhit) as Hnm. split.
    + intros c. cbn. split.
      * intros [H | [H | []]]; try discriminate. injection H as <-. now split.
      * intros [-> _]. now left.
    + intros a. cbn. split; [| tauto].
      intros [H | [H | []]]; discriminate.
  - split.
    + intros c. apply Hstage. intros c' [H | [H | [H | []]]]; discriminate.
    + intros a. rewrite Haddr. cbn. split; [| tauto].
      intros [-> | [H | [H | []]]]; try discriminate. now split.
  - split.
    + intros c. apply Hstage. intros c' [H | [H | []]]; discriminate.
    + intros a. rewrite Haddr. cbn. split; [| tauto].
      intros [-> | [H | []]]; try discriminate. now split.
  - split.
    + intros c. apply Hstage. intros c' [H | [H | []]]; discriminate.
    + intros a. rewrite Haddr. cbn. split; [| tauto].
      intros [-> | [H | []]]; try discriminate. now split.
  - split.
    + intros c. apply Hstage. intros c' [H | [H | []]]; discriminate.
    + intros a. rewrite Haddr. cbn. split; [| tauto].
      intros [-> | [H | []]]; try discriminate. now split.
Qed.

(** X5: the handler does not use the [apt_idx] and [cu_size] the caller
    sends.  Changing them changes neither the status nor the calls and
    reads made, and a run that returns gives the same record. *)
Theorem request_fields_unused ddev args v w :
  let r := resolve ddev args in
  let r' := resolve ddev (set_apt_idx v (set_cu_size w args)) in
  status r' = status r /\
  events r' = events r /\
  (forall st, status r = Returns st -> memory r' = memory r).
Proof.
  intros r r'. subst r r'.
  set (args' := set_apt_idx v (set_cu_size w args)).
  assert (Hmiss' : cu_idx_misses ddev args -> cu_idx_misses ddev args')
    by (intros H; exact H).
  paths ddev args.
  - rewrite (InfoCuFacts.resolve_cu_hit cfg beyond by_cu by_pa ddev args' _ e
               Hcu eq_refl Hhit He).
    cbn. repeat split.
  - rewrite (InfoCuFacts.resolve_cu_fault cfg beyond by_cu by_pa ddev args' _
               Hcu eq_refl Hhit He).
    cbn. repeat split. discriminate.
  - rewrite (InfoCuFacts.resolve_addr_hit cfg beyond by_cu by_pa ddev args' _ e
               (Hmiss' Hmiss) eq_refl Hpa He).
    cbn. repeat split.
  - rewrite (InfoCuFacts.resolve_addr_fault cfg beyond by_cu by_pa ddev args' _
               (Hmiss' Hmiss) eq_refl Hpa He).
    cbn. repeat split. discriminate.
  - rewrite (InfoCuFacts.resolve_both_miss_read cfg beyond by_cu by_pa ddev
               args' e (Hmiss' Hmiss) Hpa He).
    cbn. repeat split.
  - rewrite (InfoCuFacts.resolve_both_miss_fault cfg beyond by_cu by_pa ddev
               args' (Hmiss' Hmiss) Hpa He).
    cbn. repeat split. discriminate.
Qed.

(** X6: a record returned by a resolution by CU index is a fixed point:
    sent back as a request it gives the same status, record and log. *)
Theorem cu_idx_result_fixed ddev args :
  args_cu_idx args <> -1 ->
  by_cu (dev_private ddev) (args_cu_idx args) <> - EINVAL ->
  status (resolve ddev args) = Returns 0 ->
  resolve ddev (memory (resolve ddev args)) = resolve ddev args.
Proof.
  intros Hcu0 Hhit0. paths ddev args; intros Hst; try discriminate Hst;
    try (now destruct (cu_hit_not_miss ddev args Hcu0 Hhit0)).
  match goal with
  | |- InfoCu.resolve _ _ _ _ _ ?a = _ =>
      exact (InfoCuFacts.resolve_cu_hit cfg beyond by_cu by_pa ddev a _ e
               Hcu eq_refl Hhit He)
  end.
Qed.

(** X7: if an entry found by a lookup holds the key it was looked up
    with (the address as a [phys_addr_t]), then the record of a run
    that returns with [apt_idx] inside the table is the data of one
    table entry: the entry at [apt_idx] has the [paddr], [cu_idx] and
    [cu_size] returned. *)
Theorem result_is_one_entry ddev args st :
  (forall c e, apt_at (table ddev) (by_cu (dev_private ddev) c) = Some e ->
               cu_idx e = c) ->
  (forall a e, apt_at (table ddev) (by_pa (dev_private ddev) a) = Some e ->
               addr e = phys a) ->
  status (resolve ddev args) = Returns st ->
  in_bounds (table ddev) (apt_idx (memory (resolve ddev args))) ->
  let r := resolve ddev args in
  exists e, apt_at (table ddev) (apt_idx (memory r)) = Some e /\
            paddr (memory r) = addr e /\
            args_cu_idx (memory r) = cu_idx e /\
            cu_size (memory r) = size e.
Proof.
  intros Kcu Kpa Hst Hin r. subst r. revert Hst Hin.
  paths ddev args; intros Hst Hin; try discriminate Hst; cbn in Hin |- *.
  - rewrite (InfoCuFacts.deref_in_bounds beyond _ _ Hin) in He.
    exists e. repeat split; [exact He | symmetry; now apply Kcu].
  - rewrite (InfoCuFacts.deref_in_bounds beyond _ _ Hin) in He.
    exists e. repeat split; [exact He | symmetry; now apply Kpa].
  - now destruct (InfoCuFacts.sentinel_out_of_bounds (table ddev)).
Qed.
End AnyLookups.

(** *** Instances on the section 8 table *)

Lemma scan_by_cu_idx_key zdev c e :
  apt_at (apertures (cu_subdev zdev)) (scan_by_cu_idx zdev c) = Some e ->
  cu_idx e = c.
Proof.
  intros He.
  destruct (InfoCuFacts.scan_by_cu_idx_sound zdev c) as [Hi | (e' & He' & Hk)].
  - rewrite Hi, InfoCuFacts.apt_at_sentinel in He. discriminate.
  - congruence.
Qed.

Lemma scan_by_addr_key zdev a e :
  apt_at (apertures (cu_subdev zdev)) (scan_by_addr zdev a) = Some e ->
  addr e = a.
Proof.
  intros He.
  destruct (InfoCuFacts.scan_by_addr_sound zdev a) as [Hi | (e' & He' & Hk)].
  - rewrite Hi, InfoCuFacts.apt_at_sentinel in He. discriminate.
  - congruence.
Qed.

Lemma scan_by_cu_idx_bounded zdev c :
  scan_by_cu_idx zdev c = - EINVAL \/
  in_bounds (apertures (cu_subdev zdev)) (scan_by_cu_idx zdev c).
Proof.
  destruct (InfoCuFacts.scan_by_cu_idx_sound zdev c) as [Hi | (e & He & _)];
    [now left | right]. now apply InfoCuFacts.apt_at_in_bounds with e.
Qed.

Lemma scan_by_addr_bounded zdev a :
  scan_by_addr zdev a = - EINVAL \/
  in_bounds (apertures (cu_subdev zdev)) (scan_by_addr zdev a).
Proof.
  destruct (InfoCuFacts.scan_by_addr_sound zdev a) as [Hi | (e & He & _)];
    [now left | right]. now apply InfoCuFacts.apt_at_in_bounds with e.
Qed.

Local Abbreviation lookup :=
  (resolve true unmapped scan_by_cu_idx scan_by_addr board).
Local Abbreviation lookup_stale :=
  (resolve true stale scan_by_cu_idx scan_by_addr board).
Local Abbreviation apts := (apertures (cu_subdev (dev_private board))).

(** A run that returns from the both-miss path, with [apt_idx = -22]. *)
Lemma reads_at_returned_index_witness :
  let r := lookup_stale (args_of 7 0x90000000) in
  (forall i f, In (read_apts i f) (events r) -> i = apt_idx (memory r)) /\
  (exists e, deref stale apts (apt_idx (memory r)) = Some e /\
             cu_size (memory r) = size e) /\
  (forall e, apt_at apts (apt_idx (memory r)) = Some e ->
             cu_size (memory r) = size e).
Proof.
  apply (reads_at_returned_index true stale scan_by_cu_idx scan_by_addr board
           (args_of 7 0x90000000) 0).
  reflexivity.
Defined.

Lemma wild_read_iff_both_miss_witness :
  let r := lookup_stale (args_of 7 0x90000000) in
  let both_miss := cu_idx_misses scan_by_cu_idx board (args_of 7 0x90000000) /\
                   scan_by_addr (dev_private board) 0x90000000 = - EINVAL in
  (forall i f, In (read_apts i f) (events r) -> ~ in_bounds apts i ->
               i = - EINVAL /\ f = f_size) /\
  (In (read_apts (- EINVAL) f_size) (events r) <-> both_miss).
Proof.
  apply (wild_read_iff_both_miss true stale scan_by_cu_idx scan_by_addr board
           (args_of 7 0x90000000)).
  - intros c. apply scan_by_cu_idx_bounded.
  - intros a. apply scan_by_addr_bounded.
Defined.

Lemma cu_idx_result_fixed_witness :
  lookup (memory (lookup (args_of 3 0x80010000))) = lookup (args_of 3 0x80010000).
Proof.
  apply (cu_idx_result_fixed true unmapped scan_by_cu_idx scan_by_addr board
           (args_of 3 0x80010000)).
  - discriminate.
  - discriminate.
  - reflexivity.
Defined.

Lemma result_is_one_entry_witness :
  let r := resolve false stale scan_by_cu_idx (scan_by_phys_addr false) board
             (args_of (-1) 0x180000000) in
  exists e, apt_at apts (apt_idx (memory r)) = Some e /\
            paddr (memory r) = addr e /\
            args_cu_idx (memory r) = cu_idx e /\
            cu_size (memory r) = size e.
Proof.
  apply (result_is_one_entry false stale scan_by_cu_idx
           (scan_by_phys_addr false) board (args_of (-1) 0x180000000) 0).
  - intros c e. apply scan_by_cu_idx_key.
  - intros a e. apply scan_by_addr_key.
  - reflexivity.
  - change (0 <= 1 < 2). lia.
Defined.
End InfoCuMore.

(** ** The delegating handlers, for any managers *)

Module RouterMore.
Import Router.

Section AnyManagers.
Context `{X : Externals}.


(** What the loader answers for the descriptor read at [data->axlf_ptr]. *)
Local Abbreviation copied data k := (copy_from_user k (axlf_ptr data)).
Local Abbreviation loaded dev data filp k :=
  (zocl_xclbin_read_axlf (ZOCL_GET_ZDEV dev) (snd (copied data k))
     (driver_priv filp) (-1) k).
Local Abbreviation created dev data filp k :=
  (zocl_create_hw_ctx (ZOCL_GET_ZDEV dev) data filp
     (snd (fst (loaded dev data filp k))) (snd (loaded dev data filp k))).

Lemma read_axlf_run ddev axlf filp k :
  request (zocl_read_axlf_ioctl ddev axlf filp) k =
  (Returns (fst (fst (zocl_xclbin_read_axlf (ZOCL_GET_ZDEV ddev) axlf
                        (driver_priv filp) (-1) k))),
   (snd (zocl_xclbin_read_axlf (ZOCL_GET_ZDEV ddev) axlf
           (driver_priv filp) (-1) k),
    [call_zocl_xclbin_read_axlf])).
Proof.
  unfold request, zocl_read_axlf_ioctl, extern, bind, ret. cbn [fst snd app].
  destruct (zocl_xclbin_read_axlf _ _ _ _ _) as [[st slot] k']. reflexivity.
Qed.

Lemma error_ioctl_run dev data filp k :
  request (zocl_error_ioctl dev data filp) k =
  if capable k CAP_SYS_ADMIN then
    (Returns (fst (zocl_inject_error (dev_private dev) data filp k)),
     (snd (zocl_inject_error (dev_private dev) data filp k),
      [call_capable CAP_SYS_ADMIN; call_zocl_inject_error]))
  else
    (Returns (- EACCES), (k, [call_capable CAP_SYS_ADMIN])).
Proof.
  unfold request, zocl_error_ioctl, query, extern, bind, ret.
  cbn [fst snd app]. destruct (capable k CAP_SYS_ADMIN); cbn [negb].
  - destruct (zocl_inject_error _ _ _ _). reflexivity.
  - reflexivity.
Qed.

(** X8: the calls of [zocl_create_hw_ctx_ioctl].  The copy of the
    descriptor comes first; the loader is called exactly when the copy
    succeeded; [zocl_create_hw_ctx] is called exactly when the loader
    also answered 0, and then with the slot the loader left. *)
Theorem create_hw_ctx_calls dev data filp k :
  let r := request (zocl_create_hw_ctx_ioctl dev data filp) k in
  hd_error (events r) = Some (call_copy_from_user (axlf_ptr data)) /\
  (In call_zocl_xclbin_read_axlf (events r) <-> fst (copied data k) = 0) /\
  (forall slot,
      In (call_zocl_create_hw_ctx slot) (events r) <->
      fst (copied data k) = 0 /\
      fst (fst (loaded dev data filp k)) = 0 /\
      slot = snd (fst (loaded dev data filp k))).
Proof.
  intros r. subst r. rewrite RouterFacts.create_hw_ctx_run. cbv zeta.
  destruct (Z.eqb_spec (fst (copied data k)) 0) as [Hc | Hc].
  - destruct (Z.eqb_spec (fst (fst (loaded dev data filp k))) 0) as [Hl | Hl];
      unfold events; cbn; (split; [reflexivity |]); split.
    + tauto.
    + intros slot. split.
      * intros [H | [H | [H | []]]]; try discriminate.
        injection H as <-. now repeat split.
      * intros (_ & _ & ->). tauto.
    + tauto.
    + intros slot. split.
      * intros [H | [H | []]]; discriminate.
      * intros (_ & H & _). contradiction.
  - unfold events; cbn. split; [reflexivity |]. split.
    + split; [intros [H | []]; discriminate | intros H; contradiction].
    + intros slot. split.
      * intros [H | []]; discriminate.
      * intros (H & _). contradiction.
Qed.

(** X9: [zocl_create_hw_ctx_ioctl] returns 0 exactly when the copy, the
    load and the creation all succeeded. *)
Theorem create_hw_ctx_success dev data filp k :
  status (request (zocl_create_hw_ctx_ioctl dev data filp) k) = Returns 0 <->
  fst (copied data k) = 0 /\
  fst (fst (loaded dev data filp k)) = 0 /\
  fst (created dev data filp k) = 0.
Proof.
  rewrite RouterFacts.create_hw_ctx_run. cbv zeta.
  destruct (Z.eqb_spec (fst (copied data k)) 0) as [Hc | Hc].
  - destruct (Z.eqb_spec (fst (fst (loaded dev data filp k))) 0) as [Hl | Hl];
      unfold status; cbn [fst].
    + split; [intros H; injection H as H; tauto | intros (_ & _ & ->); reflexivity].
    + split; [intros H; injection H as H; contradiction | tauto].
  - unfold status; cbn [fst]. split; [discriminate | tauto].
Qed.

(** X10: once the descriptor is copied and loaded, the handler returns
    what [zocl_create_hw_ctx] returns, failure included, and leaves the
    state that call left, reached from the state the loader left: the
    load is not undone when the creation fails. *)
Theorem create_hw_ctx_status_passed_on dev data filp k :
  fst (copied data k) = 0 ->
  fst (fst (loaded dev data filp k)) = 0 ->
  let r := request (zocl_create_hw_ctx_ioctl dev data filp) k in
  status r = Returns (fst (created dev data filp k)) /\
  memory r = snd (created dev data filp k).
Proof.
  intros Hc Hl r. subst r. rewrite RouterFacts.create_hw_ctx_run. cbv zeta.
  rewrite Hc, Hl. cbn. now split.
Qed.

(** X11: CreateHardwareContext fails like LoadBitstream.  If
    [zocl_read_axlf_ioctl] on the copied descriptor returns a non-zero
    status, [zocl_create_hw_ctx_ioctl] returns the same status and leaves
    the same state, having made the same call after its copy. *)
Theorem create_hw_ctx_fails_like_read_axlf dev data filp k st :
  fst (copied data k) = 0 ->
  let q := request (zocl_read_axlf_ioctl dev (snd (copied data k)) filp) k in
  status q = Returns st ->
  st <> 0 ->
  let r := request (zocl_create_hw_ctx_ioctl dev data filp) k in
  status r = Returns st /\
  memory r = memory q /\
  events r = call_copy_from_user (axlf_ptr data) :: events q.
Proof.
  intros Hc q Hq Hst r. subst q r. revert Hq.
  rewrite read_axlf_run, RouterFacts.create_hw_ctx_run. cbv zeta.
  unfold status, memory, events. cbn [fst snd]. intros Hq.
  injection Hq as Hq. rewrite Hc, Hq. cbn [Z.eqb].
  apply Z.eqb_neq in Hst. rewrite Hst. cbn. now repeat split.
Qed.

(** X12: [zocl_error_ioctl] asks for [CAP_SYS_ADMIN] first and once,
    calls [zocl_inject_error] exactly when the caller holds it, and then
    returns that call's status and leaves the state it left. *)
Theorem error_ioctl_gate dev data filp k :
  let r := request (zocl_error_ioctl dev data filp) k in
  let inj := zocl_inject_error (dev_private dev) data filp k in
  hd_error (events r) = Some (call_capable CAP_SYS_ADMIN) /\
  (In call_zocl_inject_error (events r) <-> capable k CAP_SYS_ADMIN = true) /\
  status r = Returns (if capable k CAP_SYS_ADMIN then fst inj else - EACCES) /\
  memory r = (if capable k CAP_SYS_ADMIN then snd inj else k).
Proof.
  intros r inj. subst r inj. rewrite error_ioctl_run.
  destruct (capable k CAP_SYS_ADMIN); unfold status, memory, events; cbn;
    repeat split; try tauto; try discriminate.
  intros [H | []]. discriminate.
Qed.

(** X13: [zocl_ctx_ioctl] makes one call, to [zocl_context_ioctl], and
    returns its status; [zocl_read_axlf_ioctl] makes one call, to
    [zocl_xclbin_read_axlf] with the client of the file and a slot id
    preset to -1, returns its status and drops the slot id it leaves. *)
Theorem ctx_and_read_axlf_forward ddev filp :
  (forall data,
      forwards_to (zocl_ctx_ioctl ddev data filp) call_zocl_context_ioctl
        (zocl_context_ioctl (ZOCL_GET_ZDEV ddev) data filp)) /\
  (forall axlf,
      forwards_to (zocl_read_axlf_ioctl ddev axlf filp)
        call_zocl_xclbin_read_axlf
        (fun k =>
           let l := zocl_xclbin_read_axlf (ZOCL_GET_ZDEV ddev) axlf
                      (driver_priv filp) (-1) k in
           (fst (fst l), snd l))).
Proof.
  split; intros data k.
  - unfold request, zocl_ctx_ioctl, extern. cbn [fst snd app].
    destruct (zocl_context_ioctl _ _ _ _). reflexivity.
  - apply read_axlf_run.
Qed.

End AnyManagers.
End RouterMore.

(** ** More runs on the simulated kernels *)

Module SimMore.
Import Router Sim SimNoMemory.

Local Abbreviation create_at X p :=
  (zocl_create_hw_ctx_ioctl (X := X) tt {| axlf_ptr := p |} tt).

(** The creation fails with [-ENOMEM]; slot 0 stays programmed. *)
Lemma create_hw_ctx_status_passed_on_witness :
  let r := request (create_at sim_no_memory 0x100) (boot 0) in
  status r = Returns (-12) /\
  memory r = {| user_top := 0x1000; admin := false; loader_status := 0;
                loaded := [0]; hw_ctxs := []; injected := 0 |}.
Proof.
  apply (RouterMore.create_hw_ctx_status_passed_on (X := sim_no_memory)
           tt {| axlf_ptr := 0x100 |} tt (boot 0)).
  - reflexivity.
  - reflexivity.
Defined.

(** The loader answers -16: both ioctls return -16. *)
Lemma create_hw_ctx_fails_like_read_axlf_witness :
  let q := request (zocl_read_axlf_ioctl (X := sim_externals) tt 0x100 tt)
             (boot (-16)) in
  let r := request (create_at sim_externals 0x100) (boot (-16)) in
  status r = Returns (-16) /\
  memory r = memory q /\
  events r = call_copy_from_user 0x100 :: events q.
Proof.
  apply (RouterMore.create_hw_ctx_fails_like_read_axlf (X := sim_externals)
           tt {| axlf_ptr := 0x100 |} tt (boot (-16)) (-16)).
  - reflexivity.
  - reflexivity.
  - discriminate.
Defined.
End SimMore.
